(** * nmos::details thread utilities (Development/nmos/thread_utils.h)

    A shallow embedding of the three helpers of [thread_utils.h]:
    - [reverse_lock_guard]: temporarily unlock a mutex for a scope;
    - [wait_until]: predicate wait on a condition variable that treats
      the maximum time point as "no deadline";
    - [thread_guard] and [make_thread_guard]: start a thread and, on
      destruction, run a pre-join action and join.

    The helpers are sequential code over blocking primitives of the C++
    standard library.  Each primitive is modelled from the point of view
    of the calling thread: what the rest of the program does while the
    caller is blocked is given as an explicit list (an arbitrary finite
    prefix of the future), and a call that is still waiting when that
    list is exhausted yields [Blocked].  The wait and the thread guard
    also produce the list of the observable events they performed, in
    program order. *)

From stdpp Require Import base option list gmap.
From Stdlib Require Import ZArith Lia.

(** ** Outcomes of blocking calls *)

Inductive outcome (A : Type) : Type :=
| Done (a : A)      (* the call returned *)
| Blocked           (* the call has not returned within the given future *)
| Undefined.        (* a precondition of the standard library was violated *)
Arguments Done {A} a.
Arguments Blocked {A}.
Arguments Undefined {A}.

Definition outcome_bind {A B} (r : outcome A) (k : A -> outcome B) : outcome B :=
  match r with
  | Done a => k a
  | Blocked => Blocked
  | Undefined => Undefined
  end.

(** The result of a blocking call that was given no further event to wake
    it: it has not returned. *)
Definition still_waiting {A B} (r : outcome A) : outcome B :=
  match r with
  | Undefined => Undefined
  | _ => Blocked
  end.

(** ** details::wait_until *)

Module WaitUntil.

Section wait_until.

(** The state shared between threads that the predicate reads. *)
Context {St : Type}.

(** [(std::chrono::time_point<Clock, Duration>::max)()], as the tick
    count of the largest representable time point. *)
Variable time_point_max : Z.

(** What the waiting thread finds when a wait on the condition variable
    returns (after a notification, a timeout or a spurious wakeup) and
    the lock is held again: the clock and the shared state.  The timer
    that ends a timed wait belongs to the rest of the system: its wakeup
    is one of these records. *)
Record wake := Wake { wk_time : Z; wk_shared : St }.

(** The calling thread: the shared state as it reads it, its clock, and
    whether its [std::unique_lock] owns the mutex. *)
Record thread_state := ThreadState {
  shared : St;
  now : Z;
  owns_lock : bool
}.

Inductive cv_status := no_timeout | timeout.

Inductive event :=
| EvPredicate (locked : bool) (s : St) (r : bool) (* predicate() was called *)
| EvWait                       (* condition.wait(lock) was entered *)
| EvWaitUntil (tp : Z)         (* condition.wait_until(lock, tp) was entered *)
| EvWake (w : wake).           (* the wait returned, lock re-acquired *)

Definition resume (w : wake) : thread_state :=
  {| shared := wk_shared w; now := wk_time w; owns_lock := true |}.

Definition call_predicate (predicate : St -> bool) (st : thread_state)
  : list event * bool :=
  ([EvPredicate (owns_lock st) (shared st) (predicate (shared st))],
   predicate (shared st)).

(** [std::condition_variable::wait(lock)]: requires the lock to be
    owned; releases it, blocks, and re-acquires it on wakeup. *)
Definition cv_wait (st : thread_state) (next : option wake)
  : list event * outcome thread_state :=
  if owns_lock st then
    match next with
    | Some w => ([EvWait; EvWake w], Done (resume w))
    | None => ([EvWait], Blocked)
    end
  else ([EvWait], Undefined).

(** [std::condition_variable::wait_until(lock, tp)] as the standard
    specifies it: as [cv_wait], and reports [timeout] when the deadline
    has expired on return.  Clock and deadline are in the same unit and
    are compared exactly.  [cv_wait_until_ns] below is the primitive with
    the arithmetic of an implementation. *)
Definition cv_wait_until (tp : Z) (st : thread_state) (next : option wake)
  : list event * outcome (cv_status * thread_state) :=
  if owns_lock st then
    match next with
    | Some w =>
        ([EvWaitUntil tp; EvWake w],
         Done (if (tp <=? wk_time w)%Z then timeout else no_timeout, resume w))
    | None => ([EvWaitUntil tp], Blocked)
    end
  else ([EvWaitUntil tp], Undefined).

(** [std::condition_variable::wait(lock, pred)]:
    [while (!pred()) wait(lock);] *)
Fixpoint cv_wait_pred (predicate : St -> bool) (st : thread_state)
    (env : list wake) : list event * outcome (thread_state * list wake) :=
  let (tr, b) := call_predicate predicate st in
  if b then (tr, Done (st, env))
  else
    match env with
    | [] =>
        let (tr1, r) := cv_wait st None in
        (tr ++ tr1, still_waiting r)
    | w :: env' =>
        match cv_wait st (Some w) with
        | (tr1, Done st') =>
            let (tr2, r) := cv_wait_pred predicate st' env' in
            (tr ++ tr1 ++ tr2, r)
        | (tr1, Blocked) => (tr ++ tr1, Blocked)
        | (tr1, Undefined) => (tr ++ tr1, Undefined)
        end
    end.

(** [std::condition_variable::wait_until(lock, tp, pred)]:
    [while (!pred()) if (wait_until(lock, tp) == cv_status::timeout)
       return pred();
     return true;] *)
Fixpoint cv_wait_until_pred (tp : Z) (predicate : St -> bool)
    (st : thread_state) (env : list wake)
  : list event * outcome (bool * thread_state * list wake) :=
  let (tr, b) := call_predicate predicate st in
  if b then (tr, Done (true, st, env))
  else
    match env with
    | [] =>
        let (tr1, r) := cv_wait_until tp st None in
        (tr ++ tr1, still_waiting r)
    | w :: env' =>
        match cv_wait_until tp st (Some w) with
        | (tr1, Done (timeout, st')) =>
            let (tr2, b') := call_predicate predicate st' in
            (tr ++ tr1 ++ tr2, Done (b', st', env'))
        | (tr1, Done (no_timeout, st')) =>
            let (tr2, r) := cv_wait_until_pred tp predicate st' env' in
            (tr ++ tr1 ++ tr2, r)
        | (tr1, Blocked) => (tr ++ tr1, Blocked)
        | (tr1, Undefined) => (tr ++ tr1, Undefined)
        end
    end.

(** [details::wait_until(condition, lock, tp, predicate)] *)
Definition wait_until (tp : Z) (predicate : St -> bool)
    (st : thread_state) (env : list wake)
  : list event * outcome (bool * thread_state * list wake) :=
  if (time_point_max =? tp)%Z then
    let (tr, r) := cv_wait_pred predicate st env in
    (tr, outcome_bind r (fun '(st', env') => Done (true, st', env')))
  else
    cv_wait_until_pred tp predicate st env.

(** *** The timed wait with the arithmetic of libstdc++

    In libstdc++ the wait on [steady_clock] or [system_clock] ends with
    [Clock::now() < atime ? cv_status::no_timeout : cv_status::timeout].
    The clock counts nanoseconds in a signed 64-bit integer, and the
    comparison first converts the deadline to that type: its tick count
    is multiplied by the number of nanoseconds in a tick, and the product
    wraps around.  Here the clock is read in nanoseconds, a deadline
    counts ticks, and [period] is the number of nanoseconds in a tick. *)

Definition wrap64 (z : Z) : Z := ((z + 2 ^ 63) mod 2 ^ 64 - 2 ^ 63)%Z.

Definition in_int64 (z : Z) : Prop := (- 2 ^ 63 <= z < 2 ^ 63)%Z.

(** The deadline as the comparison sees it. *)
Definition to_ns (period : positive) (tp : Z) : Z :=
  wrap64 (tp * Z.pos period).

Definition cv_wait_until_ns (period : positive) (tp : Z)
    (st : thread_state) (next : option wake)
  : list event * outcome (cv_status * thread_state) :=
  if owns_lock st then
    match next with
    | Some w =>
        ([EvWaitUntil tp; EvWake w],
         Done (if (wk_time w <? to_ns period tp)%Z then no_timeout else timeout,
               resume w))
    | None => ([EvWaitUntil tp], Blocked)
    end
  else ([EvWaitUntil tp], Undefined).

(** [std::condition_variable::wait_until(lock, tp, pred)], the same loop
    as [cv_wait_until_pred], over [cv_wait_until_ns]. *)
Fixpoint cv_wait_until_pred_ns (period : positive) (tp : Z)
    (predicate : St -> bool) (st : thread_state) (env : list wake)
  : list event * outcome (bool * thread_state * list wake) :=
  let (tr, b) := call_predicate predicate st in
  if b then (tr, Done (true, st, env))
  else
    match env with
    | [] =>
        let (tr1, r) := cv_wait_until_ns period tp st None in
        (tr ++ tr1, still_waiting r)
    | w :: env' =>
        match cv_wait_until_ns period tp st (Some w) with
        | (tr1, Done (timeout, st')) =>
            let (tr2, b') := call_predicate predicate st' in
            (tr ++ tr1 ++ tr2, Done (b', st', env'))
        | (tr1, Done (no_timeout, st')) =>
            let (tr2, r) := cv_wait_until_pred_ns period tp predicate st' env' in
            (tr ++ tr1 ++ tr2, r)
        | (tr1, Blocked) => (tr ++ tr1, Blocked)
        | (tr1, Undefined) => (tr ++ tr1, Undefined)
        end
    end.

(** [details::wait_until(condition, lock, tp, predicate)] over
    [cv_wait_until_ns].  The test against the maximum compares tick
    counts; no conversion is involved. *)
Definition wait_until_ns (period : positive) (tp : Z) (predicate : St -> bool)
    (st : thread_state) (env : list wake)
  : list event * outcome (bool * thread_state * list wake) :=
  if (time_point_max =? tp)%Z then
    let (tr, r) := cv_wait_pred predicate st env in
    (tr, outcome_bind r (fun '(st', env') => Done (true, st', env')))
  else
    cv_wait_until_pred_ns period tp predicate st env.

(** *** Properties of event logs *)

(** Every wakeup in the log is directly followed by a call of the
    predicate, made with the lock held, on the state found at the
    wakeup. *)
Fixpoint rechecked_after_wake (tr : list event) : Prop :=
  match tr with
  | [] => True
  | EvWake w :: tl =>
      (exists r tl', tl = EvPredicate true (wk_shared w) r :: tl')
      /\ rechecked_after_wake tl
  | _ :: tl => rechecked_after_wake tl
  end.

(** An event that is not a predicate call made without the lock. *)
Definition under_lock (e : event) : Prop :=
  match e with
  | EvPredicate locked _ _ => locked = true
  | _ => True
  end.

Definition is_timed_wait (e : event) : bool :=
  match e with EvWaitUntil _ => true | _ => false end.


Definition is_predicate_call (e : event) : bool :=
  match e with EvPredicate _ _ _ => true | _ => false end.

Definition predicate_calls (tr : list event) : nat :=
  length (filter (fun e => is_predicate_call e = true) tr).

End wait_until.

(** The largest tick count of a 64-bit signed representation, as used by
    the clocks of the standard library. *)
Definition int64_max : Z := 9223372036854775807.

End WaitUntil.

(** ** details::reverse_lock_guard *)

Module ReverseLock.

(** A mutex is either free or owned by one thread.  The table maps each
    live mutex to its owner; mutexes and threads are named by numbers. *)
Abbreviation mutexes := (gmap nat (option nat)).

(** What other threads do to the mutexes while the caller runs or is
    blocked. *)
Inductive step :=
| OtherLock (t m : nat)      (* thread [t] tries to lock [m] *)
| OtherUnlock (t m : nat).   (* thread [t] unlocks [m] *)

Definition other_step (me : nat) (e : step) (σ : mutexes) : mutexes :=
  match e with
  | OtherLock t m =>
      if decide (t = me) then σ
      else match σ !! m with
           | Some None => <[m := Some t]> σ
           | _ => σ
           end
  | OtherUnlock t m =>
      if decide (t = me) then σ
      else match σ !! m with
           | Some (Some o) => if decide (o = t) then <[m := None]> σ else σ
           | _ => σ
           end
  end.

Definition other_steps (me : nat) (env : list step) (σ : mutexes) : mutexes :=
  foldl (fun σ' e => other_step me e σ') σ env.

(** [m.unlock()] called by thread [me]: the mutex must be owned by the
    caller. *)
Definition mutex_unlock (me m : nat) (σ : mutexes) : outcome mutexes :=
  match σ !! m with
  | Some (Some o) => if decide (o = me) then Done (<[m := None]> σ) else Undefined
  | _ => Undefined
  end.

(** [m.lock()] called by thread [me]: blocks until the mutex is free,
    then owns it.  Locking a mutex the caller already owns is
    undefined. *)
Fixpoint mutex_lock (me m : nat) (σ : mutexes) (env : list step)
  : outcome (mutexes * list step) :=
  match σ !! m with
  | None => Undefined
  | Some None => Done (<[m := Some me]> σ, env)
  | Some (Some o) =>
      if decide (o = me) then Undefined
      else match env with
           | [] => Blocked
           | e :: env' => mutex_lock me m (other_step me e σ) env'
           end
  end.

(** The guard holds a reference to the mutex: [mutex_type& m]. *)
Record reverse_lock_guard := { m : nat }.

(** [explicit reverse_lock_guard(mutex_type& m) : m(m) { m.unlock(); }] *)
Definition reverse_lock_guard_ctor (me mx : nat) (σ : mutexes)
  : outcome (reverse_lock_guard * mutexes) :=
  outcome_bind (mutex_unlock me mx σ) (fun σ' => Done ({| m := mx |}, σ')).

(** [~reverse_lock_guard() { m.lock(); }] *)
Definition reverse_lock_guard_dtor (me : nat) (g : reverse_lock_guard) (σ : mutexes)
    (env : list step) : outcome (mutexes * list step) :=
  mutex_lock me (m g) σ env.

(** How control leaves a block. *)
Inductive exit := Normal | EarlyReturn | Unwinding.

(** [{ reverse_lock_guard<M> unlock(mx); body }]: the guard is a local
    of the block, so its destructor runs when the body is left, however
    it is left. *)
Definition scoped (me mx : nat)
    (body : mutexes -> list step -> outcome (exit * mutexes * list step))
    (σ : mutexes) (env : list step) : outcome (exit * mutexes * list step) :=
  outcome_bind (reverse_lock_guard_ctor me mx σ) (fun '(g, σ1) =>
  outcome_bind (body σ1 env) (fun '(x, σ2, env2) =>
  outcome_bind (reverse_lock_guard_dtor me g σ2 env2) (fun '(σ3, env3) =>
  Done (x, σ3, env3)))).

End ReverseLock.

(** ** details::thread_guard and details::make_thread_guard *)

(** Programs over a world [W] that log events [E]. *)
Definition prog (W E A : Type) : Type := W -> list E * outcome (A * W).

Definition prog_ret {W E A} (a : A) : prog W E A :=
  fun w => ([], Done (a, w)).

Definition prog_bind {W E A B} (p : prog W E A) (k : A -> prog W E B)
  : prog W E B :=
  fun w =>
    match p w with
    | (tr, Done (a, w')) => let (tr', r) := k a w' in (tr ++ tr', r)
    | (tr, Blocked) => (tr, Blocked)
    | (tr, Undefined) => (tr, Undefined)
    end.

#[global] Instance prog_mret {W E} : MRet (prog W E) := fun A => prog_ret.
#[global] Instance prog_mbind {W E} : MBind (prog W E) :=
  fun A B k p => prog_bind p k.

(** What the template parameters [Function] and [PreJoin] must provide:
    a call operator, and copy and move construction.  A call reads and
    updates the shared state, or never returns ([None]).  The laws are
    the CopyConstructible and MoveConstructible requirements of the
    standard: the new object is equivalent to the original; nothing is
    promised about a moved-from source. *)
Class Callable (St C : Type) := {
  call : C -> St -> option St;
  copy : C -> C;
  move : C -> C * C;     (* the new object, and what is left in the source *)
  call_copy : forall c s, call (copy c) s = call c s;
  call_move : forall c s, call (fst (move c)) s = call c s
}.

Module ThreadGuard.

(** The special member functions a class declares. *)
Inductive special_member :=
| CopyConstructor | MoveConstructor | CopyAssignment | MoveAssignment
| Destructor.

Inductive declaration := UserProvided | Deleted.

(** The declarations of [thread_guard], lines 47 to 51. *)
Definition thread_guard_declares (sm : special_member) : declaration :=
  match sm with
  | MoveConstructor => UserProvided
  | Destructor => UserProvided
  | CopyConstructor => Deleted
  | CopyAssignment => Deleted
  | MoveAssignment => Deleted
  end.

Definition supports (sm : special_member) : bool :=
  match thread_guard_declares sm with
  | UserProvided => true
  | Deleted => false
  end.

Section thread_guard.

Context {St Function PreJoin : Type}.
Context `{!Callable St Function, !Callable St PreJoin}.

(** A thread of execution that was started and not yet joined, with the
    body it still has to run, or one that was joined. *)
Inductive thread_entry :=
| Started (body : Function)
| Joined.

Record world := World {
  shared : St;
  threads : gmap nat thread_entry
}.

Inductive event :=
| EvStart (t : nat)     (* a new thread of execution was started *)
| EvPreJoin             (* pre_join() was called *)
| EvJoin (t : nat).     (* thread.join() was called, thread owning t *)

Notation "'M' A" := (prog world event A) (at level 10, only parsing).

(** [std::thread] handle: the thread it owns, if any. *)
Definition std_thread := option nat.

Definition joinable (th : std_thread) : bool :=
  match th with Some _ => true | None => false end.

(** [std::thread::thread(f)]: copies [f] and starts it on a new thread
    of execution.  When the constructor returns the new thread is
    recorded with its whole body still to run and the shared state is as
    it was; what the thread does from then on, before the caller waits
    for it, is the step [thread_runs] below. *)
Definition std_thread_ctor (f : Function) : M std_thread :=
  fun w =>
    let t := fresh (dom (threads w)) in
    ([EvStart t],
     Done (Some t,
           {| shared := shared w;
              threads := <[t := Started (copy f)]> (threads w) |})).

(** [std::thread::join()]: on a joinable handle, blocks until the body
    of the thread has completed, after which the handle owns nothing.
    The caller is blocked meanwhile, so what remains of the body runs
    from the shared state the caller left, and completes or does not.
    On a handle that is not joinable the call fails. *)
Definition std_thread_join (th : std_thread) : M std_thread :=
  fun w =>
    match th with
    | None => ([], Undefined)
    | Some t =>
        match threads w !! t with
        | Some (Started body) =>
            match call body (shared w) with
            | Some s' =>
                ([EvJoin t],
                 Done (None, {| shared := s';
                                threads := <[t := Joined]> (threads w) |}))
            | None => ([EvJoin t], Blocked)
            end
        | _ => ([EvJoin t], Undefined)
        end
    end.

(** What the rest of the system does to a started thread between two
    calls of the caller: the thread runs for a while, leaves the shared
    state [s'] and has [rest] still to run.  Which states and remainders
    a body can reach depends on the body; the step takes them as
    given. *)
Definition thread_runs (t : nat) (rest : Function) (s' : St) : M unit :=
  fun w =>
    match threads w !! t with
    | Some (Started _) =>
        ([], Done (tt, {| shared := s';
                          threads := <[t := Started rest]> (threads w) |}))
    | _ => ([], Done (tt, w))
    end.

(** [pre_join()] *)
Definition call_pre_join (pj : PreJoin) : M unit :=
  fun w =>
    match call pj (shared w) with
    | Some s' => ([EvPreJoin], Done (tt, {| shared := s'; threads := threads w |}))
    | None => ([EvPreJoin], Blocked)
    end.

Record thread_guard := ThreadGuard {
  thread : std_thread;
  pre_join : PreJoin
}.

(** [thread_guard(Function f, PreJoin pre_join)
      : thread(f), pre_join(pre_join) {}]
    The parameters are passed by value: they are copies of the
    arguments. *)
Definition thread_guard_ctor (f0 : Function) (pre_join0 : PreJoin)
  : M thread_guard :=
  let f := copy f0 in
  let pre_join := copy pre_join0 in
  th ← std_thread_ctor f;
  mret {| thread := th; pre_join := copy pre_join |}.

(** [thread_guard(thread_guard&& rhs)
      : thread(std::move(rhs.thread)), pre_join(std::move(rhs.pre_join)) {}]
    Returns the new guard and the state [rhs] is left in.  A moved-from
    [std::thread] owns no thread. *)
Definition thread_guard_move_ctor (rhs : thread_guard)
  : thread_guard * thread_guard :=
  let (pj, left) := move (pre_join rhs) in
  ({| thread := thread rhs; pre_join := pj |},
   {| thread := None; pre_join := left |}).

(** [~thread_guard() { pre_join(); if (thread.joinable()) thread.join(); }] *)
Definition thread_guard_dtor (g : thread_guard) : M unit :=
  call_pre_join (pre_join g);;
  if joinable (thread g) then std_thread_join (thread g);; mret tt
  else mret tt.

(** [make_thread_guard(Function f, PreJoin pj) { return{ f, pj }; }] *)
Definition make_thread_guard (f0 : Function) (pj0 : PreJoin)
  : M thread_guard :=
  let f := copy f0 in
  let pj := copy pj0 in
  thread_guard_ctor f pj.

(** *** Behavioural equivalence

    Copies of a callable are distinct objects that behave alike, so
    guards and worlds are compared up to the behaviour of the callables
    they hold. *)

Definition same_calls {C} `{!Callable St C} (c1 c2 : C) : Prop :=
  forall s, call c1 s = call c2 s.

Definition entry_equiv (e1 e2 : thread_entry) : Prop :=
  match e1, e2 with
  | Started b1, Started b2 => same_calls b1 b2
  | Joined, Joined => True
  | _, _ => False
  end.

Definition world_equiv (w1 w2 : world) : Prop :=
  shared w1 = shared w2 /\
  forall t, option_Forall2 entry_equiv (threads w1 !! t) (threads w2 !! t).

Definition guard_equiv (g1 g2 : thread_guard) : Prop :=
  thread g1 = thread g2 /\ same_calls (pre_join g1) (pre_join g2).

Definition outcome_equiv {A} (R : A -> A -> Prop) (r1 r2 : outcome A) : Prop :=
  match r1, r2 with
  | Done a1, Done a2 => R a1 a2
  | Blocked, Blocked => True
  | Undefined, Undefined => True
  | _, _ => False
  end.

(** Two runs are alike: the same events, and both block, both fail, or
    both return, in equivalent worlds. *)
Definition run_equiv {A} (R : A -> A -> Prop)
    (r1 r2 : list event * outcome (A * world)) : Prop :=
  r1.1 = r2.1 /\
  outcome_equiv (fun x1 x2 => R x1.1 x2.1 /\ world_equiv x1.2 x2.2) r1.2 r2.2.

End thread_guard.

(** *** A worker that runs until it is told to stop

    The shared state is a shutdown flag.  The thread body waits, with no
    deadline, until the flag is set; the pre-join action sets it.  Both
    are closures that capture the flag by reference, so a copy or a
    moved-from closure is the same closure. *)

Inductive wait_for_shutdown := WaitForShutdown.
Inductive set_shutdown := SetShutdown.

#[export] Instance wait_for_shutdown_callable : Callable bool wait_for_shutdown :=
  {| call := fun _ (shutdown : bool) => if shutdown then Some true else None;
     copy := fun c => c;
     move := fun c => (c, c);
     call_copy := fun _ _ => eq_refl;
     call_move := fun _ _ => eq_refl |}.

#[export] Instance set_shutdown_callable : Callable bool set_shutdown :=
  {| call := fun _ _ => Some true;
     copy := fun c => c;
     move := fun c => (c, c);
     call_copy := fun _ _ => eq_refl;
     call_move := fun _ _ => eq_refl |}.

(** One worker, thread 0, running; shutdown not requested. *)
Definition one_worker : @world bool wait_for_shutdown :=
  {| shared := false; threads := {[ 0 := Started WaitForShutdown ]} |}.

Definition worker_guard : @thread_guard set_shutdown :=
  {| thread := Some 0; pre_join := SetShutdown |}.

(** *** A thread that reports that it is ready

    The shared state is a ready flag.  The thread body sets it and
    returns; once it has run, nothing remains of it.  The pre-join action
    waits until the flag is set. *)

Inductive set_ready := SetReady | NothingLeft.
Inductive wait_for_ready := WaitForReady.

#[export] Instance set_ready_callable : Callable bool set_ready :=
  {| call := fun c (ready : bool) =>
               match c with SetReady => Some true | NothingLeft => Some ready end;
     copy := fun c => c;
     move := fun c => (c, c);
     call_copy := fun _ _ => eq_refl;
     call_move := fun _ _ => eq_refl |}.

#[export] Instance wait_for_ready_callable : Callable bool wait_for_ready :=
  {| call := fun _ (ready : bool) => if ready then Some true else None;
     copy := fun c => c;
     move := fun c => (c, c);
     call_copy := fun _ _ => eq_refl;
     call_move := fun _ _ => eq_refl |}.

End ThreadGuard.

(** * Properties *)

(** ** wait_until *)

Section wait_until_facts.

Import WaitUntil.

Context {St : Type}.
Variable time_point_max : Z.
Variable predicate : St -> bool.

Implicit Types (st : @thread_state St) (env : list (@wake St)).

Lemma cv_wait_pred_head st env :
  exists tl,
    (cv_wait_pred predicate st env).1
    = EvPredicate (owns_lock st) (shared st) (predicate (shared st)) :: tl.
Proof.
  destruct env as [|w env]; simpl;
    destruct (predicate (shared st)); simpl; eauto.
  - unfold cv_wait. destruct (owns_lock st); simpl; eauto.
  - unfold cv_wait. destruct (owns_lock st); simpl; eauto.
    destruct (cv_wait_pred predicate (resume w) env); simpl; eauto.
Qed.

Lemma cv_wait_pred_now st env :
  predicate (shared st) = true ->
  cv_wait_pred predicate st env
  = ([EvPredicate (owns_lock st) (shared st) true], Done (st, env)).
Proof. intros Hp. destruct env; simpl; rewrite Hp; reflexivity. Qed.

Lemma cv_wait_pred_step st w env :
  predicate (shared st) = false -> owns_lock st = true ->
  cv_wait_pred predicate st (w :: env)
  = (EvPredicate true (shared st) false :: EvWait :: EvWake w
       :: (cv_wait_pred predicate (resume w) env).1,
     (cv_wait_pred predicate (resume w) env).2).
Proof.
  intros Hp Hl. simpl. rewrite Hp. unfold cv_wait. rewrite Hl.
  destruct (cv_wait_pred predicate (resume w) env); reflexivity.
Qed.

Lemma cv_wait_pred_wakes pre : forall st w rest,
  owns_lock st = true ->
  predicate (shared st) = false ->
  Forall (fun v => predicate (wk_shared v) = false) pre ->
  predicate (wk_shared w) = true ->
  (cv_wait_pred predicate st (pre ++ w :: rest)).2 = Done (resume w, rest).
Proof.
  induction pre as [|v pre IH]; intros st w rest Hl Hp Hpre Hw.
  - simpl app. rewrite cv_wait_pred_step by done. simpl.
    rewrite cv_wait_pred_now by done. reflexivity.
  - inversion Hpre; subst.
    change ((v :: pre) ++ w :: rest) with (v :: (pre ++ w :: rest)).
    rewrite cv_wait_pred_step by done. simpl. apply IH; done.
Qed.

Lemma cv_wait_pred_blocked env : forall st,
  owns_lock st = true ->
  predicate (shared st) = false ->
  Forall (fun v => predicate (wk_shared v) = false) env ->
  (cv_wait_pred predicate st env).2 = Blocked.
Proof.
  induction env as [|v env IH]; intros st Hl Hp Henv.
  - simpl. rewrite Hp. unfold cv_wait. rewrite Hl. reflexivity.
  - inversion Henv; subst. rewrite cv_wait_pred_step by done. simpl.
    apply IH; done.
Qed.

Lemma cv_wait_pred_done env : forall st st' env',
  (cv_wait_pred predicate st env).2 = Done (st', env') ->
  predicate (shared st') = true.
Proof.
  induction env as [|v env IH]; intros st st' env'; simpl.
  - destruct (predicate (shared st)) eqn:Hp; simpl.
    + intros [= <- <-]. done.
    + unfold cv_wait. destruct (owns_lock st); simpl; discriminate.
  - destruct (predicate (shared st)) eqn:Hp; simpl.
    + intros [= <- <-]. done.
    + unfold cv_wait. destruct (owns_lock st); simpl; [|discriminate].
      specialize (IH (resume v) st' env').
      destruct (cv_wait_pred predicate (resume v) env); simpl in *. done.
Qed.

Lemma cv_wait_pred_rechecked env : forall st,
  rechecked_after_wake (cv_wait_pred predicate st env).1.
Proof.
  induction env as [|v env IH]; intros st; simpl.
  - destruct (predicate (shared st)); simpl; [done|].
    unfold cv_wait. destruct (owns_lock st); simpl; done.
  - destruct (predicate (shared st)); simpl; [done|].
    unfold cv_wait. destruct (owns_lock st); simpl; [|done].
    specialize (IH (resume v)).
    destruct (cv_wait_pred_head (resume v) env) as [tl Htl].
    destruct (cv_wait_pred predicate (resume v) env) as [tr r]; simpl in *.
    split; [|done]. subst tr. eauto.
Qed.

Lemma cv_wait_pred_untimed env : forall st,
  Forall (fun e => is_timed_wait e = false) (cv_wait_pred predicate st env).1.
Proof.
  induction env as [|v env IH]; intros st; simpl.
  - destruct (predicate (shared st)); simpl; [repeat constructor|].
    unfold cv_wait. destruct (owns_lock st); simpl; repeat constructor.
  - destruct (predicate (shared st)); simpl; [repeat constructor|].
    unfold cv_wait. destruct (owns_lock st); simpl; [|repeat constructor].
    specialize (IH (resume v)).
    destruct (cv_wait_pred predicate (resume v) env) as [tr r]; simpl in *.
    repeat (constructor; [done|]). done.
Qed.

Lemma wait_until_max st env :
  wait_until time_point_max time_point_max predicate st env
  = ((cv_wait_pred predicate st env).1,
     outcome_bind (cv_wait_pred predicate st env).2
       (fun '(st', env') => Done (true, st', env'))).
Proof.
  unfold wait_until. rewrite Z.eqb_refl.
  destruct (cv_wait_pred predicate st env); reflexivity.
Qed.

Lemma wait_until_not_max tp st env :
  tp <> time_point_max ->
  wait_until time_point_max tp predicate st env
  = cv_wait_until_pred tp predicate st env.
Proof.
  intros Hne. unfold wait_until.
  destruct (Z.eqb_spec time_point_max tp); congruence.
Qed.

(** C2: with the maximum time point as deadline the wait is unbounded.
    It returns [true] at once if the predicate already holds; otherwise
    it returns [true] at the first wakeup at which the predicate holds,
    and is still blocked as long as every wakeup finds the predicate
    false.  After every wakeup the predicate is called again under the
    lock, and a returned result is always [true] with the predicate
    satisfied. *)
Theorem wait_until_max_is_unbounded st env :
  owns_lock st = true ->
  let res := wait_until time_point_max time_point_max predicate st env in
  (predicate (shared st) = true -> res.2 = Done (true, st, env)) /\
  (forall pre w rest,
      predicate (shared st) = false ->
      env = pre ++ w :: rest ->
      Forall (fun v => predicate (wk_shared v) = false) pre ->
      predicate (wk_shared w) = true ->
      res.2 = Done (true, resume w, rest)) /\
  (predicate (shared st) = false ->
   Forall (fun v => predicate (wk_shared v) = false) env ->
   res.2 = Blocked) /\
  rechecked_after_wake res.1 /\
  (forall b st' env',
      res.2 = Done (b, st', env') ->
      b = true /\ predicate (shared st') = true).
Proof.
  intros Hl res. subst res. rewrite wait_until_max. simpl.
  split; [|split; [|split; [|split]]].
  - intros Hp. rewrite cv_wait_pred_now by done. reflexivity.
  - intros pre w rest Hp -> Hpre Hw.
    rewrite cv_wait_pred_wakes by done. reflexivity.
  - intros Hp Henv. rewrite cv_wait_pred_blocked by done. reflexivity.
  - apply cv_wait_pred_rechecked.
  - intros b st' env' Hres.
    destruct (cv_wait_pred predicate st env) as [tr [[st1 env1]| |]] eqn:E;
      simpl in Hres; try discriminate.
    injection Hres as <- <- <-. split; [done|].
    eapply cv_wait_pred_done. rewrite E. reflexivity.
Qed.

(** C7: with the maximum time point as deadline the timed primitive
    [condition.wait_until] is never entered. *)
Theorem wait_until_max_never_timed st env :
  Forall (fun e => is_timed_wait e = false)
    (wait_until time_point_max time_point_max predicate st env).1.
Proof. rewrite wait_until_max. simpl. apply cv_wait_pred_untimed. Qed.

(** The bounded loop. *)

Lemma cv_wait_until_pred_now tp st env :
  predicate (shared st) = true ->
  cv_wait_until_pred tp predicate st env
  = ([EvPredicate (owns_lock st) (shared st) true], Done (true, st, env)).
Proof. intros Hp. destruct env; simpl; rewrite Hp; reflexivity. Qed.

Lemma cv_wait_until_pred_early tp st w env :
  predicate (shared st) = false -> owns_lock st = true ->
  (wk_time w < tp)%Z ->
  cv_wait_until_pred tp predicate st (w :: env)
  = (EvPredicate true (shared st) false :: EvWaitUntil tp :: EvWake w
       :: (cv_wait_until_pred tp predicate (resume w) env).1,
     (cv_wait_until_pred tp predicate (resume w) env).2).
Proof.
  intros Hp Hl Ht. simpl. rewrite Hp. unfold cv_wait_until. rewrite Hl.
  destruct (Z.leb_spec tp (wk_time w)); [lia|].
  destruct (cv_wait_until_pred tp predicate (resume w) env); reflexivity.
Qed.

Lemma cv_wait_until_pred_timeout tp st w env :
  predicate (shared st) = false -> owns_lock st = true ->
  (tp <= wk_time w)%Z ->
  cv_wait_until_pred tp predicate st (w :: env)
  = ([EvPredicate true (shared st) false; EvWaitUntil tp; EvWake w;
      EvPredicate true (wk_shared w) (predicate (wk_shared w))],
     Done (predicate (wk_shared w), resume w, env)).
Proof.
  intros Hp Hl Ht. simpl. rewrite Hp. unfold cv_wait_until. rewrite Hl.
  destruct (Z.leb_spec tp (wk_time w)); [reflexivity|lia].
Qed.

Lemma cv_wait_until_pred_stops tp pre : forall st w rest,
  owns_lock st = true ->
  predicate (shared st) = false ->
  Forall (fun v => predicate (wk_shared v) = false /\ (wk_time v < tp)%Z) pre ->
  predicate (wk_shared w) = true \/ (tp <= wk_time w)%Z ->
  (cv_wait_until_pred tp predicate st (pre ++ w :: rest)).2
  = Done (predicate (wk_shared w), resume w, rest).
Proof.
  induction pre as [|v pre IH]; intros st w rest Hl Hp Hpre Hw.
  - simpl app. destruct (Z.le_gt_cases tp (wk_time w)) as [Ht|Ht].
    + rewrite cv_wait_until_pred_timeout by done. reflexivity.
    + destruct Hw as [Hw|Hw]; [|lia].
      rewrite cv_wait_until_pred_early by (done || lia). simpl.
      rewrite cv_wait_until_pred_now by done. rewrite Hw. reflexivity.
  - inversion Hpre as [|? ? [Hv Ht] Hpre']; subst.
    change ((v :: pre) ++ w :: rest) with (v :: (pre ++ w :: rest)).
    rewrite cv_wait_until_pred_early by done. simpl. apply IH; done.
Qed.

Lemma cv_wait_until_pred_blocked tp env : forall st,
  owns_lock st = true ->
  predicate (shared st) = false ->
  Forall (fun v => predicate (wk_shared v) = false /\ (wk_time v < tp)%Z) env ->
  (cv_wait_until_pred tp predicate st env).2 = Blocked.
Proof.
  induction env as [|v env IH]; intros st Hl Hp Henv.
  - simpl. rewrite Hp. unfold cv_wait_until. rewrite Hl. reflexivity.
  - inversion Henv as [|? ? [Hv Ht] Henv']; subst.
    rewrite cv_wait_until_pred_early by done. simpl. apply IH; done.
Qed.

Lemma cv_wait_until_pred_done tp env : forall st b st' env',
  owns_lock st = true ->
  (cv_wait_until_pred tp predicate st env).2 = Done (b, st', env') ->
  b = predicate (shared st') /\ (b = false -> (tp <= now st')%Z).
Proof.
  induction env as [|v env IH]; intros st b st' env' Hl.
  - simpl. destruct (predicate (shared st)) eqn:Hp; simpl.
    + intros [= <- <- <-]. done.
    + unfold cv_wait_until. rewrite Hl. simpl. discriminate.
  - destruct (predicate (shared st)) eqn:Hp.
    + rewrite cv_wait_until_pred_now by done. simpl.
      intros [= <- <- <-]. done.
    + destruct (Z.le_gt_cases tp (wk_time v)) as [Ht|Ht].
      * rewrite cv_wait_until_pred_timeout by done. simpl.
        intros [= <- <- <-]. done.
      * rewrite cv_wait_until_pred_early by done. simpl.
        apply IH. reflexivity.
Qed.

Lemma cv_wait_until_pred_head tp st env :
  exists tl,
    (cv_wait_until_pred tp predicate st env).1
    = EvPredicate (owns_lock st) (shared st) (predicate (shared st)) :: tl.
Proof.
  destruct env as [|w env]; simpl;
    destruct (predicate (shared st)); simpl; eauto;
    unfold cv_wait_until; destruct (owns_lock st); simpl; eauto.
  destruct (tp <=? wk_time w)%Z; simpl; eauto.
  destruct (cv_wait_until_pred tp predicate (resume w) env); simpl; eauto.
Qed.


(** The loop over the primitive of libstdc++ returns what the loop over
    the exact primitive returns for the deadline as converted. *)
Lemma cv_wait_until_pred_ns_result period tp env : forall st,
  (cv_wait_until_pred_ns period tp predicate st env).2
  = (cv_wait_until_pred (to_ns period tp) predicate st env).2.
Proof.
  induction env as [|v env IH]; intros st; simpl.
  - destruct (predicate (shared st)); simpl; [done|].
    unfold cv_wait_until_ns, cv_wait_until.
    destruct (owns_lock st); reflexivity.
  - destruct (predicate (shared st)); simpl; [done|].
    unfold cv_wait_until_ns, cv_wait_until.
    destruct (owns_lock st); simpl; [|done].
    destruct (Z.ltb_spec (wk_time v) (to_ns period tp)) as [Hlt|Hge];
      destruct (Z.leb_spec (to_ns period tp) (wk_time v)) as [Hle|Hgt];
      try lia; simpl; [|done].
    specialize (IH (resume v)).
    destruct (cv_wait_until_pred_ns period tp predicate (resume v) env);
      destruct (cv_wait_until_pred (to_ns period tp) predicate (resume v) env);
      done.
Qed.

Lemma wrap64_in_int64 z : in_int64 z -> wrap64 z = z.
Proof.
  unfold in_int64, wrap64. intros Hz.
  rewrite Z.mod_small by lia. lia.
Qed.

Lemma wait_until_ns_max period st env :
  wait_until_ns time_point_max period time_point_max predicate st env
  = ((cv_wait_pred predicate st env).1,
     outcome_bind (cv_wait_pred predicate st env).2
       (fun '(st', env') => Done (true, st', env'))).
Proof.
  unfold wait_until_ns. rewrite Z.eqb_refl.
  destruct (cv_wait_pred predicate st env); reflexivity.
Qed.

Lemma wait_until_ns_not_max period tp st env :
  tp <> time_point_max ->
  wait_until_ns time_point_max period tp predicate st env
  = cv_wait_until_pred_ns period tp predicate st env.
Proof.
  intros Hne. unfold wait_until_ns.
  destruct (Z.eqb_spec time_point_max tp); congruence.
Qed.

Lemma cv_wait_until_pred_returns tp env : forall st,
  owns_lock st = true ->
  Exists (fun w => (tp <= wk_time w)%Z) env ->
  exists b st' env',
    (cv_wait_until_pred tp predicate st env).2 = Done (b, st', env').
Proof.
  induction env as [|v env IH]; intros st Hl Hex.
  - inversion Hex.
  - destruct (predicate (shared st)) eqn:Hp.
    + rewrite cv_wait_until_pred_now by done. simpl. eauto.
    + destruct (Z.le_gt_cases tp (wk_time v)) as [Ht|Ht].
      * rewrite cv_wait_until_pred_timeout by done. simpl. eauto.
      * rewrite cv_wait_until_pred_early by done. simpl.
        apply IH; [reflexivity|].
        inversion Hex; subst; [lia|done].
Qed.

(** C3, as amended: with a deadline other than the maximum whose
    conversion to nanoseconds fits the 64-bit count of the clock, the
    wait is bounded.  It returns [true] at once if the predicate already
    holds; otherwise it returns at the first wakeup at which the
    predicate holds or the clock has reached the deadline, with the value
    of the predicate there, and is still blocked as long as neither has
    happened.  A returned result is the value of the predicate in the
    state at return, [false] is returned only with the clock at or past
    the deadline, and the call returns once there is a wakeup at or past
    the deadline. *)
Theorem wait_until_ns_bounded period tp st env :
  tp <> time_point_max ->
  in_int64 (tp * Z.pos period) ->
  owns_lock st = true ->
  let deadline := (tp * Z.pos period)%Z in
  let res := wait_until_ns time_point_max period tp predicate st env in
  (predicate (shared st) = true -> res.2 = Done (true, st, env)) /\
  (forall pre w rest,
      predicate (shared st) = false ->
      env = pre ++ w :: rest ->
      Forall (fun v => predicate (wk_shared v) = false
                       /\ (wk_time v < deadline)%Z) pre ->
      predicate (wk_shared w) = true \/ (deadline <= wk_time w)%Z ->
      res.2 = Done (predicate (wk_shared w), resume w, rest)) /\
  (predicate (shared st) = false ->
   Forall (fun v => predicate (wk_shared v) = false
                    /\ (wk_time v < deadline)%Z) env ->
   res.2 = Blocked) /\
  (forall b st' env',
      res.2 = Done (b, st', env') ->
      b = predicate (shared st') /\ (b = false -> (deadline <= now st')%Z)) /\
  (Exists (fun w => (deadline <= wk_time w)%Z) env ->
   exists b st' env', res.2 = Done (b, st', env')).
Proof.
  intros Hne Hfit Hl deadline res. subst res.
  rewrite wait_until_ns_not_max by done.
  rewrite cv_wait_until_pred_ns_result.
  unfold to_ns. rewrite wrap64_in_int64 by done. fold deadline.
  split; [|split; [|split; [|split]]].
  - intros Hp. rewrite cv_wait_until_pred_now by done. reflexivity.
  - intros pre w rest Hp -> Hpre Hw. apply cv_wait_until_pred_stops; done.
  - intros Hp Henv. apply cv_wait_until_pred_blocked; done.
  - intros b st' env'. apply cv_wait_until_pred_done; done.
  - apply cv_wait_until_pred_returns; done.
Qed.


(** C9: with a deadline (other than the maximum) that is already in the
    past, the first thing the call does is call the predicate, with the
    lock held; so every run that returns has called it at least once,
    and if the predicate holds the call returns [true] without
    waiting. *)
Theorem wait_until_past_deadline tp st env :
  tp <> time_point_max ->
  (tp < now st)%Z ->
  owns_lock st = true ->
  let res := wait_until time_point_max tp predicate st env in
  (exists tl,
      res.1 = EvPredicate true (shared st) (predicate (shared st)) :: tl) /\
  1 <= predicate_calls res.1 /\
  (predicate (shared st) = true ->
   res = ([EvPredicate true (shared st) true], Done (true, st, env))).
Proof.
  intros Hne Hpast Hl res. subst res. rewrite wait_until_not_max by done.
  destruct (cv_wait_until_pred_head tp st env) as [tl Htl].
  rewrite Hl in Htl. split; [eauto|]. split.
  - rewrite Htl. unfold predicate_calls.
    rewrite filter_cons_True by done. simpl. lia.
  - intros Hp. rewrite cv_wait_until_pred_now by done.
    rewrite Hl. reflexivity.
Qed.

End wait_until_facts.

(** ** reverse_lock_guard *)

Section reverse_lock_facts.

Import ReverseLock.

Variable me : nat.

Implicit Types (σ : gmap nat (option nat)) (env : list step).

Lemma other_step_owned e σ mx :
  σ !! mx = Some (Some me) -> other_step me e σ !! mx = Some (Some me).
Proof.
  intros Hme. destruct e as [t m0|t m0]; simpl; case_decide; try done.
  - destruct (σ !! m0) as [[o|]|] eqn:E; try done.
    destruct (decide (m0 = mx)) as [->|]; [congruence|].
    by rewrite lookup_insert_ne.
  - destruct (σ !! m0) as [[o|]|] eqn:E; try done.
    case_decide; [|done].
    destruct (decide (m0 = mx)) as [->|]; [congruence|].
    by rewrite lookup_insert_ne.
Qed.

Lemma other_step_absent e σ mx :
  σ !! mx = None -> other_step me e σ !! mx = None.
Proof.
  intros Hno. destruct e as [t m0|t m0]; simpl; case_decide; try done.
  - destruct (σ !! m0) as [[o|]|] eqn:E; try done.
    destruct (decide (m0 = mx)) as [->|]; [congruence|].
    by rewrite lookup_insert_ne.
  - destruct (σ !! m0) as [[o|]|] eqn:E; try done.
    case_decide; [|done].
    destruct (decide (m0 = mx)) as [->|]; [congruence|].
    by rewrite lookup_insert_ne.
Qed.

Lemma other_steps_owned env : forall σ mx,
  σ !! mx = Some (Some me) -> other_steps me env σ !! mx = Some (Some me).
Proof.
  induction env as [|e env IH]; intros σ mx H; [done|].
  apply IH, other_step_owned, H.
Qed.

Lemma other_steps_absent env : forall σ mx,
  σ !! mx = None -> other_steps me env σ !! mx = None.
Proof.
  induction env as [|e env IH]; intros σ mx H; [done|].
  apply IH, other_step_absent, H.
Qed.

(** [lock] returns as soon as the other threads leave the mutex free. *)
Lemma mutex_lock_acquires env : forall σ mx k,
  other_steps me (take k env) σ !! mx = Some None ->
  exists j, j <= k /\
    mutex_lock me mx σ env
    = Done (<[mx := Some me]> (other_steps me (take j env) σ), drop j env).
Proof.
  induction env as [|e env IH]; intros σ mx k Hfree.
  - rewrite take_nil in Hfree. simpl in Hfree. exists 0. split; [lia|].
    simpl. rewrite Hfree. reflexivity.
  - destruct (σ !! mx) as [[o|]|] eqn:E.
    + destruct (decide (o = me)) as [->|Hne].
      { rewrite other_steps_owned in Hfree by done. discriminate. }
      destruct k as [|k].
      { simpl in Hfree. congruence. }
      simpl in Hfree. destruct (IH _ _ _ Hfree) as (j & Hj & Hlock).
      exists (S j). split; [lia|].
      simpl. rewrite E. rewrite decide_False by done. exact Hlock.
    + exists 0. split; [lia|]. simpl. rewrite E. reflexivity.
    + rewrite other_steps_absent in Hfree by done. discriminate.
Qed.

(** C4: for a mutex held by the current thread, constructing the guard
    releases it at once (any thread that then asks for it gets it), and
    whichever way the body leaves the scope, and whatever the other
    threads did to the mutex meanwhile, provided they leave it free at
    some point, the block ends with the same mutex held by the current
    thread again, as before. *)
Theorem reverse_lock_round_trip mx σ body env x σ2 env2 k :
  σ !! mx = Some (Some me) ->
  body (<[mx := None]> σ) env = Done (x, σ2, env2) ->
  other_steps me (take k env2) σ2 !! mx = Some None ->
  reverse_lock_guard_ctor me mx σ = Done ({| m := mx |}, <[mx := None]> σ) /\
  (<[mx := None]> σ) !! mx = Some None /\
  (forall t,
      mutex_lock t mx (<[mx := None]> σ) []
      = Done (<[mx := Some t]> (<[mx := None]> σ), [])) /\
  exists σ3 env3,
    scoped me mx body σ env = Done (x, σ3, env3) /\
    σ3 !! mx = Some (Some me) /\
    σ3 !! mx = σ !! mx /\
    exists j, j <= k /\
      σ3 = <[mx := Some me]> (other_steps me (take j env2) σ2) /\
      env3 = drop j env2.
Proof.
  intros Hheld Hbody Hfree.
  assert (Hctor : reverse_lock_guard_ctor me mx σ = Done ({| m := mx |}, <[mx := None]> σ)).
  { unfold reverse_lock_guard_ctor, mutex_unlock. rewrite Hheld.
    rewrite decide_True by done. reflexivity. }
  split; [exact Hctor|]. split; [apply lookup_insert_eq|]. split.
  - intros t. simpl. rewrite lookup_insert_eq. reflexivity.
  - destruct (mutex_lock_acquires _ _ _ _ Hfree) as (j & Hj & Hlock).
    eexists _, _. split; [|split; [|split]].
    + unfold scoped. rewrite Hctor. simpl. rewrite Hbody. simpl.
      unfold reverse_lock_guard_dtor. simpl. rewrite Hlock. simpl. reflexivity.
    + apply lookup_insert_eq.
    + rewrite lookup_insert_eq. done.
    + exists j. done.
Qed.

End reverse_lock_facts.

(** ** thread_guard *)

Section thread_guard_facts.

Import ThreadGuard.

Context {St Function PreJoin : Type}.
Context `{!Callable St Function, !Callable St PreJoin}.

Implicit Types (g : @thread_guard PreJoin) (w : @world St Function).

(** The runs of the destructor, case by case. *)

Lemma dtor_pre_join_blocks g w :
  call (pre_join g) (shared w) = None ->
  thread_guard_dtor g w = ([EvPreJoin], Blocked).
Proof.
  intros Hpj. unfold thread_guard_dtor, mbind, prog_mbind, prog_bind,
    call_pre_join. rewrite Hpj. reflexivity.
Qed.

Lemma dtor_not_joinable g w s1 :
  thread g = None ->
  call (pre_join g) (shared w) = Some s1 ->
  thread_guard_dtor g w
  = ([EvPreJoin], Done (tt, {| shared := s1; threads := threads w |})).
Proof.
  intros Hth Hpj. unfold thread_guard_dtor, mbind, prog_mbind, prog_bind,
    call_pre_join. rewrite Hpj, Hth. reflexivity.
Qed.

Lemma dtor_joinable g w s1 t :
  thread g = Some t ->
  call (pre_join g) (shared w) = Some s1 ->
  thread_guard_dtor g w
  = ([EvPreJoin; EvJoin t],
     match threads w !! t with
     | Some (Started body) =>
         match call body s1 with
         | Some s2 =>
             Done (tt, {| shared := s2;
                          threads := <[t := Joined]> (threads w) |})
         | None => Blocked
         end
     | _ => Undefined
     end).
Proof.
  intros Hth Hpj. unfold thread_guard_dtor, mbind, prog_mbind, prog_bind,
    call_pre_join. rewrite Hpj, Hth. simpl.
  destruct (threads w !! t) as [[body|]|]; try reflexivity.
  destruct (call body s1); reflexivity.
Qed.

Lemma dtor_log g w :
  (thread_guard_dtor g w).1 = [EvPreJoin] \/
  exists t, thread g = Some t /\
            is_Some (call (pre_join g) (shared w)) /\
            (thread_guard_dtor g w).1 = [EvPreJoin; EvJoin t].
Proof.
  destruct (call (pre_join g) (shared w)) as [s1|] eqn:Hpj.
  - destruct (thread g) as [t|] eqn:Hth.
    + right. exists t. erewrite dtor_joinable by done. eauto.
    + left. erewrite dtor_not_joinable by done. done.
  - left. rewrite dtor_pre_join_blocks by done. done.
Qed.

(** C1: the destructor calls the pre-join action first; a join, if any,
    comes strictly after it in the log, is a join of the thread the
    guard owns, and happens exactly when the handle is joinable (and the
    pre-join action has returned).  The join returns when the thread
    body has completed, and blocks if it never does. *)
Theorem dtor_pre_join_then_join g w :
  let res := thread_guard_dtor g w in
  (exists tl, res.1 = EvPreJoin :: tl) /\
  (forall i t, res.1 !! i = Some (EvJoin t) ->
               thread g = Some t /\
               exists j, j < i /\ res.1 !! j = Some EvPreJoin) /\
  (joinable (thread g) = false -> forall t, EvJoin t ∉ res.1) /\
  (forall t s1,
      thread g = Some t ->
      call (pre_join g) (shared w) = Some s1 ->
      res.1 = [EvPreJoin; EvJoin t] /\
      forall body,
        threads w !! t = Some (Started body) ->
        res.2 = match call body s1 with
                | Some s2 =>
                    Done (tt, {| shared := s2;
                                 threads := <[t := Joined]> (threads w) |})
                | None => Blocked
                end).
Proof.
  intros res. subst res. split; [|split; [|split]].
  - destruct (dtor_log g w) as [->|(t & _ & _ & ->)]; eauto.
  - intros i t Hi.
    destruct (dtor_log g w) as [Hlog|(t' & Hth & _ & Hlog)];
      rewrite Hlog in Hi |- *.
    + destruct i as [|[|i]]; discriminate.
    + destruct i as [|[|i]]; try discriminate.
      injection Hi as ->. split; [done|]. exists 0. split; [lia|done].
  - intros Hnj t Hin.
    destruct (dtor_log g w) as [Hlog|(t' & Hth & _ & Hlog)].
    + rewrite Hlog in Hin. apply list_elem_of_singleton in Hin. discriminate.
    + rewrite Hth in Hnj. discriminate.
  - intros t s1 Hth Hpj. rewrite (dtor_joinable g w s1 t) by done.
    split; [done|]. intros body Hbody. simpl. rewrite Hbody. done.
Qed.

(** A moved-from guard: whatever the guard and the world, its destructor
    calls the pre-join action left in it, and joins nothing. *)
Lemma moved_from_dtor_log g w :
  (thread_guard_dtor (thread_guard_move_ctor g).2 w).1 = [EvPreJoin].
Proof.
  unfold thread_guard_move_ctor. destruct (move (pre_join g)) as [pj lft].
  simpl.
  destruct (call lft (shared w)) as [s1|] eqn:Hpj.
  - erewrite dtor_not_joinable by done. done.
  - rewrite dtor_pre_join_blocks by done. done.
Qed.

(** C6, as amended: move construction hands the thread handle and a
    pre-join action that behaves as the source's over to the new guard
    and leaves the source with a handle that is not joinable, so that
    destroying the source joins nothing; move assignment, copy
    construction and copy assignment are all deleted. *)
Theorem thread_guard_move_construct_only g :
  let dst := (thread_guard_move_ctor g).1 in
  let src := (thread_guard_move_ctor g).2 in
  thread dst = thread g /\
  same_calls (pre_join dst) (pre_join g) /\
  joinable (thread src) = false /\
  (forall w t, EvJoin t ∉ (thread_guard_dtor src w).1) /\
  supports MoveConstructor = true /\
  supports MoveAssignment = false /\
  supports CopyConstructor = false /\
  supports CopyAssignment = false.
Proof.
  intros dst src.
  assert (Hdst : thread dst = thread g /\ pre_join dst = (move (pre_join g)).1
                 /\ thread src = None).
  { subst dst src. unfold thread_guard_move_ctor.
    destruct (move (pre_join g)); done. }
  destruct Hdst as (Hth & Hpj & Hsrc).
  split; [done|]. split.
  { intros s. rewrite Hpj. apply call_move. }
  split; [by rewrite Hsrc|]. split; [|done].
  intros w t Hin. subst src. rewrite moved_from_dtor_log in Hin.
  apply list_elem_of_singleton in Hin. discriminate.
Qed.

(** The destructor respects behavioural equivalence. *)
Lemma dtor_equiv g1 g2 w1 w2 :
  guard_equiv g1 g2 -> world_equiv w1 w2 ->
  run_equiv (fun _ _ => True) (thread_guard_dtor g1 w1) (thread_guard_dtor g2 w2).
Proof.
  intros [Hth Hpj] [Hsh Hthr].
  destruct (call (pre_join g1) (shared w1)) as [s1|] eqn:E1.
  - assert (E2 : call (pre_join g2) (shared w2) = Some s1)
      by (rewrite <- Hpj, <- Hsh; done).
    destruct (thread g1) as [t|] eqn:Ht1.
    + rewrite (dtor_joinable g1 w1 s1 t), (dtor_joinable g2 w2 s1 t)
        by congruence.
      split; [done|]. simpl.
      specialize (Hthr t) as Ht.
      destruct Ht as [[b1|] [b2|] Hb|]; simpl in *; try done.
      rewrite <- (Hb s1). destruct (call b1 s1); simpl; [|done].
      split; [done|]. split; [done|]. intros t'. simpl.
      destruct (decide (t = t')) as [->|Hne].
      * rewrite !lookup_insert_eq. by constructor.
      * rewrite !lookup_insert_ne by done. apply Hthr.
    + rewrite (dtor_not_joinable g1 w1 s1), (dtor_not_joinable g2 w2 s1)
        by congruence.
      split; [done|]. simpl. done.
  - assert (E2 : call (pre_join g2) (shared w2) = None)
      by (rewrite <- Hpj, <- Hsh; done).
    rewrite !dtor_pre_join_blocks by done. done.
Qed.

Lemma thread_guard_ctor_run (f : Function) (pj : PreJoin) w :
  thread_guard_ctor f pj w
  = ([EvStart (fresh (dom (threads w)))],
     Done ({| thread := Some (fresh (dom (threads w)));
              pre_join := copy (copy pj) |},
           {| shared := shared w;
              threads := <[fresh (dom (threads w)) := Started (copy (copy f))]>
                           (threads w) |})).
Proof. reflexivity. Qed.

(** C10: [make_thread_guard(f, pj)] and [thread_guard(f, pj)] behave
    alike.  From the same world both start one thread, under the same
    identifier, whose body behaves as [f]; both return a guard that owns
    it and whose pre-join action behaves as [pj]; they leave equivalent
    worlds; and from equivalent worlds the two guards are destroyed
    alike. *)
Theorem make_thread_guard_as_ctor (f : Function) (pj : PreJoin) w :
  let t := fresh (dom (threads w)) in
  exists g1 w1 g2 w2,
    make_thread_guard f pj w = ([EvStart t], Done (g1, w1)) /\
    thread_guard_ctor f pj w = ([EvStart t], Done (g2, w2)) /\
    threads w !! t = None /\
    thread g1 = Some t /\ thread g2 = Some t /\
    (exists b1 b2,
        threads w1 !! t = Some (Started b1) /\
        threads w2 !! t = Some (Started b2) /\
        same_calls b1 f /\ same_calls b2 f) /\
    same_calls (pre_join g1) pj /\ same_calls (pre_join g2) pj /\
    guard_equiv g1 g2 /\
    world_equiv w1 w2 /\
    (forall w1' w2',
        world_equiv w1' w2' ->
        run_equiv (fun _ _ => True)
          (thread_guard_dtor g1 w1') (thread_guard_dtor g2 w2')).
Proof.
  intros t. unfold make_thread_guard. rewrite !thread_guard_ctor_run.
  fold t. eexists _, _, _, _. split; [reflexivity|]. split; [reflexivity|].
  assert (Hpj3 : same_calls (copy (copy (copy pj))) pj).
  { intros s. rewrite !call_copy. done. }
  assert (Hpj2 : same_calls (copy (copy pj)) pj).
  { intros s. rewrite !call_copy. done. }
  assert (Hf3 : same_calls (copy (copy (copy f))) f).
  { intros s. rewrite !call_copy. done. }
  assert (Hf2 : same_calls (copy (copy f)) f).
  { intros s. rewrite !call_copy. done. }
  assert (Hg : guard_equiv
                 {| thread := Some t; pre_join := copy (copy (copy pj)) |}
                 {| thread := Some t; pre_join := copy (copy pj) |}).
  { split; [done|]. intros s. simpl. rewrite Hpj3, Hpj2. done. }
  split.
  { apply not_elem_of_dom. apply is_fresh. }
  split; [done|]. split; [done|]. split.
  { eexists _, _. simpl. rewrite !lookup_insert_eq. done. }
  split; [done|]. split; [done|]. split; [done|]. split.
  - split; [done|]. intros t'. simpl.
    destruct (decide (t = t')) as [<-|Hne].
    + rewrite !lookup_insert_eq. constructor. simpl. intros s.
      rewrite Hf3, Hf2. done.
    + rewrite !lookup_insert_ne by done.
      destruct (threads w !! t') as [[b|]|]; constructor; simpl; done.
  - intros w1' w2' Hw. apply dtor_equiv; done.
Qed.

End thread_guard_facts.

(** ** thread_guard: what it does not do *)

Section thread_guard_limits.

Import ThreadGuard.

(** C6, as stated, fails: move assignment is not supported. *)
Lemma thread_guard_move_assignment_deleted :
  ~ (supports MoveConstructor = true /\ supports MoveAssignment = true /\
     supports CopyConstructor = false /\ supports CopyAssignment = false).
Proof. intros (_ & H & _). discriminate. Qed.

(** C5: destroying the guard that [worker_guard] was moved from is not a
    no-op.  It calls the pre-join action: the log is not empty and the
    shutdown flag, which was clear, is set, while the worker now belongs
    to the other guard. *)
Theorem moved_from_dtor_calls_pre_join :
  let dst := (thread_guard_move_ctor worker_guard).1 in
  let src := (thread_guard_move_ctor worker_guard).2 in
  thread dst = Some 0 /\
  thread src = None /\
  shared one_worker = false /\
  thread_guard_dtor src one_worker
  = ([EvPreJoin],
     Done (tt, {| shared := true; threads := threads one_worker |})).
Proof. repeat split. Qed.

(** Across the move the pre-join action runs twice, once for each guard,
    and the join once. *)
Lemma moved_guards_dtor_log :
  let dst := (thread_guard_move_ctor worker_guard).1 in
  let src := (thread_guard_move_ctor worker_guard).2 in
  ((thread_guard_dtor src;; thread_guard_dtor dst) one_worker).1
  = [EvPreJoin; EvPreJoin; EvJoin 0].
Proof. vm_compute. reflexivity. Qed.

End thread_guard_limits.

(** ** Concrete runs *)

Section concrete_runs.

Import WaitUntil.

(** C2 at a concrete run: the flag is clear on entry and at the first
    wakeup, set at the second. *)
Lemma wait_until_max_is_unbounded_witness :
  let st := {| shared := false; now := 0; owns_lock := true |} in
  owns_lock st = true /\
  (wait_until int64_max int64_max id st
     [Wake 5 false; Wake 7 true; Wake 9 false]).2
  = Done (true, resume (Wake 7 true), [Wake 9 false]).
Proof.
  intros st. split; [reflexivity|].
  refine (proj1 (proj2 (wait_until_max_is_unbounded int64_max id st _ eq_refl))
            [Wake 5 false] (Wake 7 true) [Wake 9 false]
            eq_refl eq_refl _ eq_refl).
  repeat constructor.
Defined.

(** C3, as amended, at a concrete run: ticks of 25 milliseconds, deadline
    8 ticks, the flag never set before it. *)
Lemma wait_until_ns_bounded_witness :
  let st := {| shared := false; now := 0; owns_lock := true |} in
  (8 <> int64_max)%Z /\ in_int64 (8 * 25000000) /\ owns_lock st = true /\
  (wait_until_ns int64_max 25000000 8 id st
     [Wake 125000000 false; Wake 175000000 false; Wake 225000000 false;
      Wake 250000000 true]).2
  = Done (false, resume (Wake 225000000 false), [Wake 250000000 true]).
Proof.
  intros st.
  assert (Hne : (8 <> int64_max)%Z) by discriminate.
  assert (Hfit : in_int64 (8 * 25000000)) by (unfold in_int64; lia).
  split; [exact Hne|]. split; [exact Hfit|]. split; [reflexivity|].
  refine (proj1 (proj2 (wait_until_ns_bounded int64_max id 25000000 8 st _
                          Hne Hfit eq_refl))
            [Wake 125000000 false; Wake 175000000 false]
            (Wake 225000000 false) [Wake 250000000 true]
            eq_refl eq_refl _ _).
  - repeat constructor; simpl; lia.
  - right. simpl. lia.
Defined.

(** C3, as stated, fails: with ticks of 25 milliseconds and a deadline one
    tick below the maximum, the converted deadline is negative, and the
    call returns [false] at its first wakeup, two microseconds after the
    epoch of the clock, with the deadline centuries away and the
    predicate about to hold. *)
Lemma wait_until_ns_false_before_deadline :
  let period := 25000000%positive in
  let tp := (int64_max - 1)%Z in
  let st := {| shared := false; now := 1000; owns_lock := true |} in
  let res := wait_until_ns int64_max period tp id st
               [Wake 2000 false; Wake 3000 true] in
  tp <> int64_max /\ owns_lock st = true /\
  to_ns period tp = (-50000000)%Z /\
  res.2 = Done (false, resume (Wake 2000 false), [Wake 3000 true]) /\
  ~ (forall b st' env',
        res.2 = Done (b, st', env') ->
        b = false -> (tp * Z.pos period <= now st')%Z).
Proof.
  intros period tp st res.
  split; [discriminate|]. split; [reflexivity|]. split; [reflexivity|].
  split; [reflexivity|].
  intros H. specialize (H false _ _ eq_refl eq_refl).
  vm_compute in H. apply H. reflexivity.
Qed.


(** C9 at a concrete run: deadline 8, clock at 100, flag already set. *)
Lemma wait_until_past_deadline_witness :
  let st := {| shared := true; now := 100; owns_lock := true |} in
  (8 < now st)%Z /\
  wait_until int64_max 8 id st [Wake 101 false]
  = ([EvPredicate true true true], Done (true, st, [Wake 101 false])).
Proof.
  intros st. split; [reflexivity|].
  assert (Hne : (8 <> int64_max)%Z) by discriminate.
  exact (proj2 (proj2
           (wait_until_past_deadline int64_max id 8 st [Wake 101 false]
              Hne eq_refl eq_refl)) eq_refl).
Defined.

Import ReverseLock.

(** C4 at a concrete run: thread 7 holds mutex 1; inside the scope
    thread 8 takes it, the body is left by unwinding, and thread 8
    releases the mutex after thread 9 has asked for it in vain. *)
Lemma reverse_lock_round_trip_witness :
  let σ : gmap nat (option nat) := {[ 1 := Some 7 ]} in
  let body σ' (env : list step) :=
    Done (Unwinding, other_step 7 (OtherLock 8 1) σ', env) in
  let env := [OtherLock 9 1; OtherUnlock 8 1; OtherLock 9 1] in
  σ !! 1 = Some (Some 7) /\
  exists σ3 env3,
    scoped 7 1 body σ env = Done (Unwinding, σ3, env3) /\
    σ3 !! 1 = Some (Some 7).
Proof.
  intros σ body env. split; [reflexivity|].
  destruct (proj2 (proj2 (proj2
    (reverse_lock_round_trip 7 1 σ body env Unwinding
       (other_step 7 (OtherLock 8 1) (<[1 := None]> σ)) env 2
       eq_refl eq_refl eq_refl))))
    as (σ3 & env3 & Hrun & Hheld & _).
  exists σ3, env3. split; [exact Hrun|exact Hheld].
Defined.

End concrete_runs.


(** * Further properties *)

(** ** wait_until: lock discipline, accounting, deadlines *)

Section wait_until_more.

Import WaitUntil.

Context {St : Type}.
Variable time_point_max : Z.
Variable predicate : St -> bool.

Implicit Types (st : @thread_state St) (env : list (@wake St)).

Lemma cv_wait_pred_discipline env : forall st,
  owns_lock st = true ->
  (cv_wait_pred predicate st env).2 <> Undefined /\
  (forall st' env',
      (cv_wait_pred predicate st env).2 = Done (st', env') ->
      owns_lock st' = true) /\
  Forall under_lock (cv_wait_pred predicate st env).1.
Proof.
  induction env as [|v env IH]; intros st Hl.
  - simpl. destruct (predicate (shared st)) eqn:Hp; simpl.
    + split; [done|]. split; [by intros ? ? [= <- <-]|].
      repeat constructor; exact Hl.
    + unfold cv_wait. rewrite Hl. simpl.
      split; [done|]. split; [done|]. repeat constructor; exact Hl.
  - destruct (predicate (shared st)) eqn:Hp.
    + rewrite cv_wait_pred_now by done. simpl.
      split; [done|]. split; [by intros ? ? [= <- <-]|].
      repeat constructor; exact Hl.
    + rewrite cv_wait_pred_step by done. simpl.
      destruct (IH (resume v) eq_refl) as (Hu & Hd & Htr).
      split; [done|]. split; [done|].
      repeat (constructor; [done|]). exact Htr.
Qed.

Lemma cv_wait_until_pred_discipline tp env : forall st,
  owns_lock st = true ->
  (cv_wait_until_pred tp predicate st env).2 <> Undefined /\
  (forall b st' env',
      (cv_wait_until_pred tp predicate st env).2 = Done (b, st', env') ->
      owns_lock st' = true) /\
  Forall under_lock (cv_wait_until_pred tp predicate st env).1.
Proof.
  induction env as [|v env IH]; intros st Hl.
  - simpl. destruct (predicate (shared st)) eqn:Hp; simpl.
    + split; [done|]. split; [by intros ? ? ? [= <- <- <-]|].
      repeat constructor; exact Hl.
    + unfold cv_wait_until. rewrite Hl. simpl.
      split; [done|]. split; [done|]. repeat constructor; exact Hl.
  - destruct (predicate (shared st)) eqn:Hp.
    + rewrite cv_wait_until_pred_now by done. simpl.
      split; [done|]. split; [by intros ? ? ? [= <- <- <-]|].
      repeat constructor; exact Hl.
    + destruct (Z.le_gt_cases tp (wk_time v)) as [Ht|Ht].
      * rewrite cv_wait_until_pred_timeout by done. simpl.
        split; [done|]. split; [by intros ? ? ? [= <- <- <-]|].
        repeat constructor.
      * rewrite cv_wait_until_pred_early by done. simpl.
        destruct (IH (resume v) eq_refl) as (Hu & Hd & Htr).
        split; [done|]. split; [done|].
        repeat (constructor; [done|]). exact Htr.
Qed.


(** Counting predicate calls. *)

Lemma predicate_calls_cons (e : @event St) tr :
  predicate_calls (e :: tr)
  = (if is_predicate_call e then 1 else 0) + predicate_calls tr.
Proof.
  unfold predicate_calls. destruct (is_predicate_call e) eqn:E.
  - rewrite filter_cons_True by done. reflexivity.
  - rewrite filter_cons_False by (rewrite E; done). reflexivity.
Qed.

Lemma cv_wait_pred_accounting env : forall st st' env',
  (cv_wait_pred predicate st env).2 = Done (st', env') ->
  exists used,
    env = used ++ env' /\
    predicate_calls (cv_wait_pred predicate st env).1 = S (length used).
Proof.
  induction env as [|v env IH]; intros st st' env'.
  - simpl. destruct (predicate (shared st)) eqn:Hp; simpl.
    + intros [= <- <-]. exists []. done.
    + unfold cv_wait. destruct (owns_lock st); simpl; discriminate.
  - destruct (predicate (shared st)) eqn:Hp.
    + rewrite cv_wait_pred_now by done. simpl.
      intros [= <- <-]. exists []. done.
    + destruct (owns_lock st) eqn:Hl.
      * rewrite cv_wait_pred_step by done. simpl. intros Hd.
        destruct (IH _ _ _ Hd) as (used & -> & Hn).
        exists (v :: used). split; [done|].
        rewrite !predicate_calls_cons, Hn. simpl. reflexivity.
      * simpl. rewrite Hp. unfold cv_wait. rewrite Hl. simpl. discriminate.
Qed.

Lemma cv_wait_until_pred_accounting tp env : forall st b st' env',
  (cv_wait_until_pred tp predicate st env).2 = Done (b, st', env') ->
  exists used,
    env = used ++ env' /\
    predicate_calls (cv_wait_until_pred tp predicate st env).1
    = S (length used).
Proof.
  induction env as [|v env IH]; intros st b st' env'.
  - simpl. destruct (predicate (shared st)) eqn:Hp; simpl.
    + intros [= <- <- <-]. exists []. done.
    + unfold cv_wait_until. destruct (owns_lock st); simpl; discriminate.
  - destruct (predicate (shared st)) eqn:Hp.
    + rewrite cv_wait_until_pred_now by done. simpl.
      intros [= <- <- <-]. exists []. done.
    + destruct (owns_lock st) eqn:Hl.
      * destruct (Z.le_gt_cases tp (wk_time v)) as [Ht|Ht].
        -- rewrite cv_wait_until_pred_timeout by done. simpl.
           intros [= <- <- <-]. exists [v]. done.
        -- rewrite cv_wait_until_pred_early by done. simpl. intros Hd.
           destruct (IH _ _ _ _ Hd) as (used & -> & Hn).
           exists (v :: used). split; [done|].
           rewrite !predicate_calls_cons, Hn. simpl. reflexivity.
      * simpl. rewrite Hp. unfold cv_wait_until. rewrite Hl. simpl.
        discriminate.
Qed.

(** X2: a call that returns has consumed a prefix of the wakeups and has
    called the predicate exactly once on entry and once per wakeup
    consumed; the wakeups it hands back are the untouched rest. *)
Theorem wait_until_one_check_per_wake tp st env b st' env' :
  (wait_until time_point_max tp predicate st env).2 = Done (b, st', env') ->
  exists used,
    env = used ++ env' /\
    predicate_calls (wait_until time_point_max tp predicate st env).1
    = S (length used).
Proof.
  destruct (decide (tp = time_point_max)) as [->|Hne].
  - rewrite wait_until_max. simpl.
    destruct (cv_wait_pred predicate st env).2 as [[st1 env1]| |] eqn:E;
      simpl; try discriminate.
    intros [= _ <- <-]. eapply cv_wait_pred_accounting. exact E.
  - rewrite wait_until_not_max by done.
    apply cv_wait_until_pred_accounting.
Qed.


Lemma cv_wait_until_pred_later tp tp' env : forall st st' env',
  owns_lock st = true ->
  (tp <= tp')%Z ->
  (cv_wait_until_pred tp predicate st env).2 = Done (true, st', env') ->
  (cv_wait_until_pred tp' predicate st env).2 = Done (true, st', env').
Proof.
  induction env as [|v env IH]; intros st st' env' Hl Hle.
  - simpl. destruct (predicate (shared st)) eqn:Hp; simpl; [done|].
    unfold cv_wait_until. rewrite Hl. simpl. discriminate.
  - destruct (predicate (shared st)) eqn:Hp.
    + rewrite !cv_wait_until_pred_now by done. done.
    + destruct (Z.le_gt_cases tp (wk_time v)) as [Ht|Ht].
      * rewrite (cv_wait_until_pred_timeout _ tp) by done.
        intros Hd. simpl in Hd. injection Hd as Hv <- <-.
        destruct (Z.le_gt_cases tp' (wk_time v)) as [Ht'|Ht'].
        -- rewrite cv_wait_until_pred_timeout by done. simpl.
           rewrite Hv. reflexivity.
        -- rewrite cv_wait_until_pred_early by done. simpl.
           rewrite cv_wait_until_pred_now by done. reflexivity.
      * rewrite (cv_wait_until_pred_early _ tp) by done.
        rewrite (cv_wait_until_pred_early _ tp') by (done || lia).
        simpl. apply IH; done.
Qed.

Lemma cv_wait_until_pred_unbounded tp env : forall st st' env',
  owns_lock st = true ->
  (cv_wait_until_pred tp predicate st env).2 = Done (true, st', env') ->
  (cv_wait_pred predicate st env).2 = Done (st', env').
Proof.
  induction env as [|v env IH]; intros st st' env' Hl.
  - simpl. destruct (predicate (shared st)) eqn:Hp; simpl.
    + intros [= <- <-]. done.
    + unfold cv_wait_until. rewrite Hl. simpl. discriminate.
  - destruct (predicate (shared st)) eqn:Hp.
    + rewrite cv_wait_until_pred_now, cv_wait_pred_now by done. simpl.
      intros [= <- <-]. done.
    + rewrite cv_wait_pred_step by done.
      destruct (Z.le_gt_cases tp (wk_time v)) as [Ht|Ht].
      * rewrite cv_wait_until_pred_timeout by done. simpl.
        intros [= Hv <- <-].
        rewrite cv_wait_pred_now by done. reflexivity.
      * rewrite cv_wait_until_pred_early by done. simpl.
        apply IH. reflexivity.
Qed.

(** X4: a later deadline keeps a success, as long as the deadlines fit.
    If the call returns [true] with a deadline [tp] whose conversion to
    nanoseconds fits the 64-bit count of the clock, then with any later
    deadline that also fits, and with the maximum, it returns [true] in
    the same state, having consumed the same wakeups. *)
Theorem wait_until_ns_later_deadline period tp tp' st env st' env' :
  owns_lock st = true ->
  (tp <= tp')%Z -> (tp' <= time_point_max)%Z ->
  tp = time_point_max \/ in_int64 (tp * Z.pos period) ->
  tp' = time_point_max \/ in_int64 (tp' * Z.pos period) ->
  (wait_until_ns time_point_max period tp predicate st env).2
  = Done (true, st', env') ->
  (wait_until_ns time_point_max period tp' predicate st env).2
  = Done (true, st', env').
Proof.
  intros Hl Hle Hmax Hfit Hfit'.
  destruct (decide (tp = time_point_max)) as [->|Hne].
  - assert (tp' = time_point_max) as -> by lia. done.
  - destruct Hfit as [?|Hfit]; [done|].
    rewrite (wait_until_ns_not_max time_point_max predicate period tp) by done.
    rewrite cv_wait_until_pred_ns_result.
    unfold to_ns. rewrite (wrap64_in_int64 (tp * Z.pos period)) by done.
    intros Hd.
    destruct (decide (tp' = time_point_max)) as [->|Hne'].
    + rewrite wait_until_ns_max. simpl.
      rewrite (cv_wait_until_pred_unbounded _ _ _ _ _ Hl Hd). reflexivity.
    + destruct Hfit' as [?|Hfit']; [done|].
      rewrite wait_until_ns_not_max by done.
      rewrite cv_wait_until_pred_ns_result.
      unfold to_ns. rewrite wrap64_in_int64 by done.
      refine (cv_wait_until_pred_later _ _ _ _ _ _ Hl _ Hd).
      apply Z.mul_le_mono_nonneg_r; lia.
Qed.

(** X5: after a call that returned [true] the predicate holds, so a
    second call, with any deadline, returns [true] at once: one predicate
    call, no wait, no wakeup consumed. *)
Theorem wait_until_again tp tp2 st env st' env' :
  owns_lock st = true ->
  (wait_until time_point_max tp predicate st env).2 = Done (true, st', env') ->
  wait_until time_point_max tp2 predicate st' env'
  = ([EvPredicate true (shared st') true], Done (true, st', env')).
Proof.
  intros Hl Hd.
  assert (Hp : predicate (shared st') = true /\ owns_lock st' = true).
  { destruct (decide (tp = time_point_max)) as [->|Hne].
    - rewrite wait_until_max in Hd. simpl in Hd.
      destruct (cv_wait_pred predicate st env).2 as [[st1 env1]| |] eqn:E;
        simpl in Hd; try discriminate.
      injection Hd as <- <-. split.
      + eapply cv_wait_pred_done. exact E.
      + eapply (cv_wait_pred_discipline env st Hl). exact E.
    - rewrite wait_until_not_max in Hd by done. split.
      + symmetry. eapply cv_wait_until_pred_done; done.
      + eapply (cv_wait_until_pred_discipline tp env st Hl). exact Hd. }
  destruct Hp as [Hp Hl'].
  destruct (decide (tp2 = time_point_max)) as [->|Hne].
  - rewrite wait_until_max, cv_wait_pred_now by done. simpl.
    rewrite Hl'. reflexivity.
  - rewrite wait_until_not_max, cv_wait_until_pred_now by done.
    rewrite Hl'. reflexivity.
Qed.

End wait_until_more.

(** ** reverse_lock_guard: what a returning scope guarantees *)

Section reverse_lock_more.

Import ReverseLock.

Variable me : nat.

Implicit Types (σ : gmap nat (option nat)) (env : list step).

(** [lock] returns only at a moment at which the mutex is free. *)
Lemma mutex_lock_done env : forall σ mx σ' env',
  mutex_lock me mx σ env = Done (σ', env') ->
  exists j,
    other_steps me (take j env) σ !! mx = Some None /\
    σ' = <[mx := Some me]> (other_steps me (take j env) σ) /\
    env' = drop j env.
Proof.
  induction env as [|e env IH]; intros σ mx σ' env' Hlock.
  - simpl in Hlock. destruct (σ !! mx) as [[o|]|] eqn:E.
    + case_decide; discriminate.
    + injection Hlock as <- <-. exists 0. done.
    + discriminate.
  - simpl in Hlock. destruct (σ !! mx) as [[o|]|] eqn:E.
    + case_decide; [discriminate|].
      destruct (IH _ _ _ _ Hlock) as (j & Hfree & -> & ->).
      exists (S j). done.
    + injection Hlock as <- <-. exists 0. done.
    + discriminate.
Qed.

Lemma scoped_done mx body σ env x σ3 env3 :
  scoped me mx body σ env = Done (x, σ3, env3) ->
  σ !! mx = Some (Some me) /\
  exists σ2 env2 j,
    body (<[mx := None]> σ) env = Done (x, σ2, env2) /\
    other_steps me (take j env2) σ2 !! mx = Some None /\
    σ3 = <[mx := Some me]> (other_steps me (take j env2) σ2) /\
    env3 = drop j env2.
Proof.
  unfold scoped, reverse_lock_guard_ctor, mutex_unlock.
  destruct (σ !! mx) as [[o|]|] eqn:E; simpl; try discriminate.
  case_decide as Ho; simpl; [subst o|discriminate].
  destruct (body (<[mx := None]> σ) env) as [[[x' σ2] env2]| |] eqn:Hb;
    simpl; try discriminate.
  unfold reverse_lock_guard_dtor. simpl.
  destruct (mutex_lock me mx σ2 env2) as [[σ' env']| |] eqn:Hl;
    simpl; try discriminate.
  intros [= <- <- <-]. split; [done|].
  destruct (mutex_lock_done _ _ _ _ _ Hl) as (j & Hfree & -> & ->).
  exists σ2, env2, j. done.
Qed.

(** X6: a scope that is left at all was entered with the mutex held by
    the current thread, is left the way the body left it, and is left
    with the mutex held by the current thread; the destructor took the
    mutex at a moment at which no thread owned it, and the steps of the
    other threads it did not wait for are handed back untouched. *)
Theorem reverse_lock_returns_holding mx body σ env x σ3 env3 :
  scoped me mx body σ env = Done (x, σ3, env3) ->
  σ !! mx = Some (Some me) /\
  σ3 !! mx = Some (Some me) /\
  exists σ2 env2 j,
    body (<[mx := None]> σ) env = Done (x, σ2, env2) /\
    other_steps me (take j env2) σ2 !! mx = Some None /\
    σ3 = <[mx := Some me]> (other_steps me (take j env2) σ2) /\
    env3 = drop j env2.
Proof.
  intros Hs. destruct (scoped_done _ _ _ _ _ _ _ Hs)
    as (Hheld & σ2 & env2 & j & Hb & Hfree & -> & ->).
  split; [done|]. split; [apply lookup_insert_eq|].
  exists σ2, env2, j. done.
Qed.

(** X7: an undisturbed inversion is the identity.  If the body leaves the
    mutex table as it found it, the scope returns at once, the whole table
    is exactly as before the scope, and no step of another thread is
    waited for. *)
Theorem reverse_lock_identity mx body σ env x env2 :
  σ !! mx = Some (Some me) ->
  body (<[mx := None]> σ) env = Done (x, <[mx := None]> σ, env2) ->
  scoped me mx body σ env = Done (x, σ, env2).
Proof.
  intros Hheld Hb.
  unfold scoped, reverse_lock_guard_ctor, mutex_unlock.
  rewrite Hheld. rewrite decide_True by done. simpl. rewrite Hb. simpl.
  unfold reverse_lock_guard_dtor. simpl.
  assert (Hl : mutex_lock me mx (<[mx := None]> σ) env2
               = Done (<[mx := Some me]> (<[mx := None]> σ), env2)).
  { destruct env2; simpl; rewrite lookup_insert_eq; reflexivity. }
  rewrite Hl. simpl. rewrite insert_insert_eq.
  rewrite insert_id by done. reflexivity.
Qed.

(** X8: inversions nest.  If a scope that inverts [m2] inside a scope that
    inverts [m1] is left, both mutexes are held by the current thread
    again. *)
Theorem reverse_lock_nested m1 m2 body σ env x σ3 env3 :
  scoped me m1 (fun σ' env' => scoped me m2 body σ' env') σ env
  = Done (x, σ3, env3) ->
  σ3 !! m1 = Some (Some me) /\ σ3 !! m2 = Some (Some me).
Proof.
  intros Hs. destruct (scoped_done _ _ _ _ _ _ _ Hs)
    as (_ & σ2 & env2 & j & Hin & _ & -> & _).
  split; [apply lookup_insert_eq|].
  destruct (scoped_done _ _ _ _ _ _ _ Hin)
    as (_ & σ1 & env1 & i & _ & _ & -> & _).
  destruct (decide (m1 = m2)) as [->|Hne]; [apply lookup_insert_eq|].
  rewrite lookup_insert_ne by done.
  apply other_steps_owned, lookup_insert_eq.
Qed.

End reverse_lock_more.

(** ** thread_guard: whole life, moves, and other threads *)

Section thread_guard_more.

Import ThreadGuard.

Context {St Function PreJoin : Type}.
Context `{!Callable St Function, !Callable St PreJoin}.

Implicit Types (g : @thread_guard PreJoin) (w : @world St Function).

(** X9: a guard is made, the new thread runs for a while, and the guard
    is destroyed.  Whatever the thread has done meanwhile, leaving the
    state [s'] and [rest] still to run: if the pre-join action returns
    from [s'], one thread was started, the pre-join action was called
    once and then that thread was joined once; the whole returns exactly
    when the rest of the body completes from the state the pre-join
    action leaves, and then the thread is recorded as joined and nothing
    else in the thread table has changed. *)
Theorem guard_made_run_destroyed (f rest : Function) (pj : PreJoin) w s' s1 :
  let t := fresh (dom (threads w)) in
  call pj s' = Some s1 ->
  (g ← make_thread_guard f pj; thread_runs t rest s';; thread_guard_dtor g) w
  = ([EvStart t; EvPreJoin; EvJoin t],
     match call rest s1 with
     | Some s2 =>
         Done (tt, {| shared := s2;
                      threads := <[t := Joined]> (threads w) |})
     | None => Blocked
     end).
Proof.
  intros t Hpj. unfold mbind, prog_mbind, prog_bind, make_thread_guard.
  rewrite thread_guard_ctor_run. fold t.
  set (g := {| thread := Some t; pre_join := copy (copy (copy pj)) |}).
  unfold thread_runs. simpl. rewrite lookup_insert_eq.
  rewrite insert_insert_eq.
  set (w2 := {| shared := s'; threads := <[t := Started rest]> (threads w) |}).
  assert (Hpj' : call (pre_join g) (shared w2) = Some s1).
  { subst g w2. simpl. rewrite !call_copy. done. }
  rewrite (dtor_joinable g w2 s1 t) by done.
  subst w2. simpl. rewrite lookup_insert_eq.
  destruct (call rest s1); [|done].
  rewrite insert_insert_eq. done.
Qed.

(** X10: a guard obtained by move construction is destroyed exactly as
    the guard it was moved from would have been. *)
Theorem moved_to_dtor_as_original g w :
  thread_guard_dtor (thread_guard_move_ctor g).1 w = thread_guard_dtor g w.
Proof.
  set (dst := (thread_guard_move_ctor g).1).
  assert (Hth : thread dst = thread g).
  { subst dst. unfold thread_guard_move_ctor.
    destruct (move (pre_join g)); done. }
  assert (Hpj : call (pre_join dst) (shared w) = call (pre_join g) (shared w)).
  { subst dst. unfold thread_guard_move_ctor.
    pose proof (call_move (pre_join g) (shared w)) as Hm.
    destruct (move (pre_join g)); done. }
  destruct (call (pre_join g) (shared w)) as [s1|] eqn:E.
  - destruct (thread g) as [t|] eqn:Ht.
    + rewrite (dtor_joinable dst w s1 t), (dtor_joinable g w s1 t) by done.
      done.
    + rewrite (dtor_not_joinable dst w s1), (dtor_not_joinable g w s1) by done.
      done.
  - rewrite !dtor_pre_join_blocks by done. done.
Qed.

(** X11: a destructor that returns has touched no thread but its own.
    Every other entry of the thread table is unchanged; the guard's own
    thread, if it has one, was started and not yet joined, and is now
    joined. *)
Theorem dtor_joins_only_own_thread g w tr u w' :
  thread_guard_dtor g w = (tr, Done (u, w')) ->
  (forall t', thread g <> Some t' -> threads w' !! t' = threads w !! t') /\
  (forall t, thread g = Some t ->
             (exists body, threads w !! t = Some (Started body)) /\
             threads w' !! t = Some Joined).
Proof.
  intros Hd.
  destruct (call (pre_join g) (shared w)) as [s1|] eqn:E.
  - destruct (thread g) as [t|] eqn:Ht.
    + rewrite (dtor_joinable g w s1 t) in Hd by done.
      destruct (threads w !! t) as [[body|]|] eqn:Hb; try discriminate.
      destruct (call body s1) as [s2|]; [|discriminate].
      injection Hd as <- <- <-. simpl. split.
      * intros t' Hne. rewrite lookup_insert_ne by congruence. done.
      * intros t0 [= <-]. split; [eauto|]. apply lookup_insert_eq.
    + rewrite (dtor_not_joinable g w s1) in Hd by done.
      injection Hd as <- <- <-. simpl. split; [done|]. intros; discriminate.
  - rewrite dtor_pre_join_blocks in Hd by done. discriminate.
Qed.

(** X13: why the destructor unblocks first.  For a thread whose body
    cannot finish from the present state but can once the pre-join action
    has run, joining the handle directly never returns, while destroying
    the guard does, with the thread joined. *)
Theorem dtor_returns_where_join_hangs g w t body s1 s2 :
  thread g = Some t ->
  threads w !! t = Some (Started body) ->
  call body (shared w) = None ->
  call (pre_join g) (shared w) = Some s1 ->
  call body s1 = Some s2 ->
  std_thread_join (thread g) w = ([EvJoin t], Blocked) /\
  thread_guard_dtor g w
  = ([EvPreJoin; EvJoin t],
     Done (tt, {| shared := s2; threads := <[t := Joined]> (threads w) |})).
Proof.
  intros Hth Hb Hstuck Hpj Hgo. split.
  - unfold std_thread_join. rewrite Hth, Hb, Hstuck. done.
  - rewrite (dtor_joinable g w s1 t) by done. rewrite Hb, Hgo. done.
Qed.

(** X14: a guard that owns a thread is moved, and then the source and the
    new guard are destroyed.  If both destructors return, the pre-join
    action has been called twice, first the one left in the source, and
    the thread has been joined once, by the new guard; no other thread is
    touched. *)
Theorem moved_pair_destroyed g w t tr u w' :
  thread g = Some t ->
  (thread_guard_dtor (thread_guard_move_ctor g).2;;
   thread_guard_dtor (thread_guard_move_ctor g).1) w = (tr, Done (u, w')) ->
  tr = [EvPreJoin; EvPreJoin; EvJoin t] /\
  threads w' = <[t := Joined]> (threads w).
Proof.
  intros Hth. unfold thread_guard_move_ctor.
  destruct (move (pre_join g)) as [pj lft]. simpl.
  set (src := {| thread := None; pre_join := lft |}).
  set (dst := {| thread := thread g; pre_join := pj |}).
  unfold mbind, prog_mbind, prog_bind.
  destruct (call lft (shared w)) as [s1|] eqn:E1.
  - rewrite (dtor_not_joinable src w s1) by done.
    set (w1 := {| shared := s1; threads := threads w |}).
    destruct (call pj s1) as [s2|] eqn:E2.
    + rewrite (dtor_joinable dst w1 s2 t) by done. subst w1. simpl.
      destruct (threads w !! t) as [[body|]|]; try discriminate.
      destruct (call body s2); [|discriminate].
      intros [= <- <- <-]. done.
    + rewrite (dtor_pre_join_blocks dst w1) by done. discriminate.
  - rewrite (dtor_pre_join_blocks src w) by done. discriminate.
Qed.

End thread_guard_more.

(** ** Concrete runs of the further properties *)

Section more_concrete_runs.

Import WaitUntil.


(** X2 at a run that times out at the second of three wakeups. *)
Lemma wait_until_one_check_per_wake_witness :
  let st := {| shared := false; now := 0; owns_lock := true |} in
  let env := [Wake 5 false; Wake 9 false; Wake 10 true] in
  (wait_until int64_max 8 id st env).2
  = Done (false, resume (Wake 9 false), [Wake 10 true]) /\
  exists used,
    env = used ++ [Wake 10 true] /\
    predicate_calls (wait_until int64_max 8 id st env).1 = S (length used).
Proof.
  intros st env. split; [reflexivity|].
  exact (wait_until_one_check_per_wake int64_max id 8 st env
           false (resume (Wake 9 false)) [Wake 10 true] eq_refl).
Defined.


(** X4 from a deadline of 8 ticks of 25 milliseconds to no deadline. *)
Lemma wait_until_ns_later_deadline_witness :
  let st := {| shared := false; now := 0; owns_lock := true |} in
  let env := [Wake 125000000 false; Wake 175000000 true; Wake 225000000 false] in
  (wait_until_ns int64_max 25000000 8 id st env).2
  = Done (true, resume (Wake 175000000 true), [Wake 225000000 false]) /\
  (wait_until_ns int64_max 25000000 int64_max id st env).2
  = Done (true, resume (Wake 175000000 true), [Wake 225000000 false]).
Proof.
  intros st env. split; [reflexivity|].
  apply (wait_until_ns_later_deadline int64_max id 25000000 8 int64_max st env).
  - reflexivity.
  - unfold int64_max. lia.
  - lia.
  - right. unfold in_int64. lia.
  - left. reflexivity.
  - reflexivity.
Defined.

(** X5 after a wait that succeeded at the second wakeup. *)
Lemma wait_until_again_witness :
  let st := {| shared := false; now := 0; owns_lock := true |} in
  let env := [Wake 5 false; Wake 7 true; Wake 9 false] in
  (wait_until int64_max 8 id st env).2
  = Done (true, resume (Wake 7 true), [Wake 9 false]) /\
  wait_until int64_max 3 id (resume (Wake 7 true)) [Wake 9 false]
  = ([EvPredicate true true true],
     Done (true, resume (Wake 7 true), [Wake 9 false])).
Proof.
  intros st env. split; [reflexivity|].
  exact (wait_until_again int64_max id 8 3 st env
           (resume (Wake 7 true)) [Wake 9 false] eq_refl eq_refl).
Defined.

Import ReverseLock.

(** X6 at the run of thread 7 on mutex 1 with threads 8 and 9 competing. *)
Lemma reverse_lock_returns_holding_witness :
  let σ : gmap nat (option nat) := {[ 1 := Some 7 ]} in
  let body σ' (env : list step) :=
    Done (Unwinding, other_step 7 (OtherLock 8 1) σ', env) in
  let env := [OtherLock 9 1; OtherUnlock 8 1; OtherLock 9 1] in
  exists x σ3 env3,
    scoped 7 1 body σ env = Done (x, σ3, env3) /\
    σ3 !! 1 = Some (Some 7).
Proof.
  intros σ body env. eexists _, _, _. split; [reflexivity|].
  exact (proj1 (proj2
           (reverse_lock_returns_holding 7 1 body σ env _ _ _ eq_refl))).
Defined.

(** X7 with a body that does not touch the mutexes. *)
Lemma reverse_lock_identity_witness :
  let σ : gmap nat (option nat) := {[ 1 := Some 7 ]} in
  let body (σ' : gmap nat (option nat)) (env : list step) :=
    Done (EarlyReturn, σ', env) in
  σ !! 1 = Some (Some 7) /\
  scoped 7 1 body σ [OtherLock 9 1] = Done (EarlyReturn, σ, [OtherLock 9 1]).
Proof.
  intros σ body. split; [reflexivity|].
  exact (reverse_lock_identity 7 1 body σ [OtherLock 9 1] EarlyReturn
           [OtherLock 9 1] eq_refl eq_refl).
Defined.

(** X8 with thread 7 holding mutexes 1 and 2. *)
Lemma reverse_lock_nested_witness :
  let σ : gmap nat (option nat) := <[2 := Some 7]> {[ 1 := Some 7 ]} in
  let body (σ' : gmap nat (option nat)) (env : list step) :=
    Done (Normal, σ', env) in
  exists x σ3 env3,
    scoped 7 1 (fun σ' env' => scoped 7 2 body σ' env') σ [] = Done (x, σ3, env3) /\
    σ3 !! 1 = Some (Some 7) /\ σ3 !! 2 = Some (Some 7).
Proof.
  intros σ body. eexists _, _, _. split; [reflexivity|].
  exact (reverse_lock_nested 7 1 2 body σ [] _ _ _ eq_refl).
Defined.

Import ThreadGuard.

(** X9 for the thread that reports that it is ready: it has set the flag
    and finished before the guard is destroyed, so the pre-join action,
    which waits for the flag, returns. *)
Lemma guard_made_run_destroyed_witness :
  let w : @world bool set_ready := {| shared := false; threads := ∅ |} in
  call WaitForReady true = Some true /\
  (g ← make_thread_guard SetReady WaitForReady;
   thread_runs 0 NothingLeft true;; thread_guard_dtor g) w
  = ([EvStart 0; EvPreJoin; EvJoin 0],
     Done (tt, {| shared := true; threads := <[0 := Joined]> ∅ |})).
Proof.
  intros w. split; [reflexivity|].
  exact (guard_made_run_destroyed SetReady NothingLeft WaitForReady w
           true true eq_refl).
Defined.

(** X11 for the shutdown worker. *)
Lemma dtor_joins_only_own_thread_witness :
  exists tr u w',
    thread_guard_dtor worker_guard one_worker = (tr, Done (u, w')) /\
    threads w' !! 0 = Some Joined.
Proof.
  eexists _, _, _. split; [reflexivity|].
  exact (proj2 (proj2 (dtor_joins_only_own_thread worker_guard one_worker
                         _ _ _ eq_refl) 0 eq_refl)).
Defined.

(** X13 for the shutdown worker: it waits for the flag, which only the
    pre-join action sets. *)
Lemma dtor_returns_where_join_hangs_witness :
  call WaitForShutdown (shared one_worker) = None /\
  std_thread_join (thread worker_guard) one_worker = ([EvJoin 0], Blocked) /\
  thread_guard_dtor worker_guard one_worker
  = ([EvPreJoin; EvJoin 0],
     Done (tt, {| shared := true;
                  threads := <[0 := Joined]> (threads one_worker) |})).
Proof.
  split; [reflexivity|].
  exact (dtor_returns_where_join_hangs worker_guard one_worker 0
           WaitForShutdown true true eq_refl eq_refl eq_refl eq_refl eq_refl).
Defined.

(** X14 for the shutdown worker. *)
Lemma moved_pair_destroyed_witness :
  exists tr u w',
    (thread_guard_dtor (thread_guard_move_ctor worker_guard).2;;
     thread_guard_dtor (thread_guard_move_ctor worker_guard).1) one_worker
    = (tr, Done (u, w')) /\
    tr = [EvPreJoin; EvPreJoin; EvJoin 0].
Proof.
  eexists _, _, _. split; [reflexivity|].
  exact (proj1 (moved_pair_destroyed worker_guard one_worker 0 _ _ _
                  eq_refl eq_refl)).
Defined.

End more_concrete_runs.
